(** * Panel order and visibility of [src/app/page.tsx]

    A shallow embedding of the state logic of the [Home] component: the
    three [useState] cells ([panelOrder], [openPanels], [activeId]), the
    event handlers that update them and the derived [visiblePanels].
    Rendering, sensors and animation are not part of the model. *)

From Stdlib Require Import ZArith String.
From stdpp Require Import base decidable countable list gmap sets.

Local Open Scope Z_scope.

(* [set_solver] clears hypotheses by name; the warning it triggers when one
   is already gone carries no information. *)
#[local] Set Warnings "-clear-no-such-hyp".

(** ** Data model *)

(** [type PanelType = 'map' | 'music' | 'chat'] (line 36). *)
Inductive PanelType : Type := map | music | chat.

#[global] Instance PanelType_eq_dec : EqDecision PanelType.
Proof. solve_decision. Defined.

Definition PanelType_code (p : PanelType) : nat :=
  match p with map => 0%nat | music => 1%nat | chat => 2%nat end.

Definition PanelType_of_code (n : nat) : PanelType :=
  match n with 0%nat => map | 1%nat => music | _ => chat end.

#[global] Instance PanelType_countable : Countable PanelType.
Proof.
  refine (inj_countable' PanelType_code PanelType_of_code _).
  by intros [].
Defined.

(** The icon components imported from the icon library (lines 29-34),
    kept as opaque handles. *)
Inductive Icon : Type :=
  | MapIcon
  | MusicalNoteIcon
  | ChatBubbleBottomCenterIcon
  | XMarkIcon.

(** [interface Panel] (lines 38-42). *)
Record Panel : Type := mkPanel {
  id : PanelType;
  title : string;
  icon : Icon;
}.

(** [allPanels] (lines 44-48). *)
Definition allPanels : list Panel :=
  [ mkPanel map "Map" MapIcon;
    mkPanel music "Music" MusicalNoteIcon;
    mkPanel chat "Chat" ChatBubbleBottomCenterIcon ].

(** What an element of the [PanelType[]] array holds at run time: a panel
    identity or JavaScript's [undefined].  The second case is needed
    because [arrayMove] can store [undefined] (see below). *)
Inductive Slot : Type :=
  | Id (p : PanelType)
  | undefined.

#[global] Instance Slot_eq_dec : EqDecision Slot.
Proof. solve_decision. Defined.

(** ** JavaScript array primitives used by the component *)

Section JsArray.
Context {T : Type} `{EqDecision T}.

(** [Array.prototype.indexOf]: the first index holding a value strictly
    equal to [x], or [-1]. *)
Fixpoint indexOf_from (k : Z) (items : list T) (x : T) : Z :=
  match items with
  | [] => -1
  | y :: rest => if decide (y = x) then k else indexOf_from (k + 1) rest x
  end.

Definition indexOf (items : list T) (x : T) : Z := indexOf_from 0 items x.

(** The start index of [Array.prototype.splice]: a negative [start]
    counts from the end, and the result is clamped to [0 .. len]. *)
Definition actualStart (len : nat) (start : Z) : nat :=
  Z.to_nat (if start <? 0
            then Z.max (Z.of_nat len + start) 0
            else Z.min start (Z.of_nat len)).

(** [a.splice(start, deleteCount, ...ins)]: the array afterwards and
    the array of removed elements. *)
Definition splice (a : list T) (start : Z) (deleteCount : nat)
    (ins : list T) : list T * list T :=
  let s := actualStart (length a) start in
  let d := Nat.min deleteCount (length a - s) in
  (take s a ++ ins ++ drop (s + d) a, take d (drop s a)).

(** [arrayMove] of [@dnd-kit/sortable] (imported at line 22); its body
    belongs to that library:
<<
    const newArray = array.slice();
    newArray.splice(to < 0 ? newArray.length + to : to, 0,
                    newArray.splice(from, 1)[0]);
    return newArray;
>>
    The arguments of the outer [splice] are evaluated left to right, so
    the target index is computed with the length before the removal.
    [undef] is the value read from index [0] of an empty array. *)
Definition arrayMove (undef : T) (array : list T) (from to : Z) : list T :=
  let target := if to <? 0 then Z.of_nat (length array) + to else to in
  let '(newArray, removed) := splice array from 1 [] in
  let moved := default undef (removed !! 0%nat) in
  fst (splice newArray target 0 [moved]).
End JsArray.

(** ** Component state *)

(** The three [useState] cells of [Home] (lines 112-116).  [activeId] is
    [PanelType | null]. *)
Record State : Type := mkState {
  panelOrder : list Slot;
  openPanels : gset PanelType;
  activeId : option PanelType;
}.

(** The initial values passed to [useState]. *)
Definition initialState : State :=
  {| panelOrder := [Id map; Id music; Id chat];
     openPanels := {[map]} ∪ ({[music]} ∪ ({[chat]} ∪ ∅));
     activeId := None |}.

(** [handleDragStart] (lines 129-131). *)
Definition handleDragStart (st : State) (active : PanelType) : State :=
  {| panelOrder := panelOrder st;
     openPanels := openPanels st;
     activeId := Some active |}.

(** The updater handed to [setPanelOrder] (lines 138-142). *)
Definition reorderItems (items : list Slot) (active over : PanelType)
    : list Slot :=
  let oldIndex := indexOf items (Id active) in
  let newIndex := indexOf items (Id over) in
  arrayMove undefined items oldIndex newIndex.

(** [handleDragEnd] (lines 133-144); [over] is [None] when the event's
    [over] is [null]. *)
Definition handleDragEnd (st : State) (active : PanelType)
    (over : option PanelType) : State :=
  let st1 := {| panelOrder := panelOrder st;
                openPanels := openPanels st;
                activeId := None |} in
  match over with
  | Some overId =>
      if decide (active ≠ overId)
      then {| panelOrder := reorderItems (panelOrder st1) active overId;
              openPanels := openPanels st1;
              activeId := activeId st1 |}
      else st1
  | None => st1
  end.

(** [handleDragCancel] (lines 146-148). *)
Definition handleDragCancel (st : State) : State :=
  {| panelOrder := panelOrder st;
     openPanels := openPanels st;
     activeId := None |}.

(** The updater of [togglePanel] (lines 151-159), on a copy of the set. *)
Definition toggleSet (prev : gset PanelType) (panelId : PanelType)
    : gset PanelType :=
  let newSet := prev in
  if decide (panelId ∈ newSet) then newSet ∖ {[panelId]}
  else {[panelId]} ∪ newSet.

(** [togglePanel] (lines 150-160). *)
Definition togglePanel (st : State) (panelId : PanelType) : State :=
  {| panelOrder := panelOrder st;
     openPanels := toggleSet (openPanels st) panelId;
     activeId := activeId st |}.

(** The updater of [closePanel] (lines 163-167). *)
Definition closeSet (prev : gset PanelType) (panelId : PanelType)
    : gset PanelType :=
  let newSet := prev in
  newSet ∖ {[panelId]}.

(** [closePanel] (lines 162-168). *)
Definition closePanel (st : State) (panelId : PanelType) : State :=
  {| panelOrder := panelOrder st;
     openPanels := closeSet (openPanels st) panelId;
     activeId := activeId st |}.

(** [openPanels.has(id)] on an array element: the set holds identities
    only, so [undefined] is never a member. *)
Definition has (s : gset PanelType) (x : Slot) : bool :=
  match x with
  | Id p => bool_decide (p ∈ s)
  | undefined => false
  end.

(** [allPanels.find((p) => p.id === id)]: the first matching entry, or
    [None] for JavaScript's [undefined]. *)
Definition findPanel (x : Slot) : option Panel :=
  List.find (fun p => bool_decide (Id (id p) = x)) allPanels.

(** [visiblePanels] (lines 170-172).  The [!] after [find] is erased at
    run time, so an entry is whatever [find] returned. *)
Definition visiblePanels (st : State) : list (option Panel) :=
  List.map findPanel (List.filter (has (openPanels st)) (panelOrder st)).

(** [activePanel] (line 174). *)
Definition activePanel (st : State) : option Panel :=
  match activeId st with
  | Some a => findPanel (Id a)
  | None => None
  end.

(** ** The operations as the specification words them *)

Section ReorderSpec.
Context {T : Type} `{EqDecision T}.

(** The position of the first occurrence of [x] (the length of [l] when
    there is none). *)
Fixpoint position (x : T) (l : list T) : nat :=
  match l with
  | [] => 0%nat
  | y :: rest => if decide (y = x) then 0%nat else S (position x rest)
  end.

(** [l] without the first occurrence of [x]. *)
Fixpoint removeFirst (x : T) (l : list T) : list T :=
  match l with
  | [] => []
  | y :: rest => if decide (y = x) then rest else y :: removeFirst x rest
  end.

(** [x] placed so that it ends up at index [n]. *)
Definition insertAt (n : nat) (x : T) (l : list T) : list T :=
  take n l ++ x :: drop n l.

(** "If [fromId == toId], no-op.  Otherwise, remove [fromId] from Order
    and reinsert it at the position currently occupied by [toId]." *)
Definition reorder_spec (order : list T) (fromId toId : T) : list T :=
  if decide (fromId = toId) then order
  else insertAt (position toId order) fromId (removeFirst fromId order).
End ReorderSpec.

(** The identities of the Registry, as array elements. *)
Definition registryIds : list Slot := Id <$> (id <$> allPanels).

(** A call of one of the two visibility operations. *)
Inductive VisOp : Type :=
  | Toggle (p : PanelType)
  | Close (p : PanelType).

Definition applyOp (st : State) (op : VisOp) : State :=
  match op with
  | Toggle p => togglePanel st p
  | Close p => closePanel st p
  end.

(** The calls are made one after the other, oldest first. *)
Definition runOps (st : State) (ops : list VisOp) : State :=
  foldl applyOp st ops.

(** The number of [toggle(p)] calls in [ops]. *)
Fixpoint toggles (p : PanelType) (ops : list VisOp) : nat :=
  match ops with
  | [] => 0%nat
  | Toggle q :: rest =>
      if decide (q = p) then S (toggles p rest) else toggles p rest
  | Close _ :: rest => toggles p rest
  end.

(** The calls made after the last [close(p)], or [None] when [ops] has no
    [close(p)]. *)
Fixpoint sinceLastClose (p : PanelType) (ops : list VisOp)
    : option (list VisOp) :=
  match ops with
  | [] => None
  | op :: rest =>
      match sinceLastClose p rest with
      | Some tail => Some tail
      | None =>
          match op with
          | Close q => if decide (q = p) then Some rest else None
          | Toggle _ => None
          end
      end
  end.

(** The identity held by an array element, if any. *)
Definition slotId (x : Slot) : option PanelType :=
  match x with
  | Id p => Some p
  | undefined => None
  end.

(** The identities of an Order, in sequence. *)
Definition orderIds (order : list Slot) : list PanelType :=
  omap slotId order.

(** The identity of an entry of [visiblePanels]. *)
Definition entryId (entry : option Panel) : option PanelType :=
  id <$> entry.

(** A state whose Order holds two of the three identities: [chat] is
    absent from it. *)
Definition stateWithoutChat : State :=
  {| panelOrder := [Id map; Id music];
     openPanels := {[map]};
     activeId := None |}.

(** ** What the render reads off the state *)

(** What the callback of [panelOrder.map] (lines 191-211) computes for one
    sidebar button: its key, the title and icon of the panel found in
    [allPanels], and the [isOpen] flag that selects its style. *)
Record SidebarButton : Type := mkSidebarButton {
  buttonKey : Slot;
  buttonOpen : bool;
  buttonIcon : Icon;
  buttonTitle : string;
}.

(** Lines 192-194.  The [!] after [find] checks nothing: when no entry is
    found, [panel] is [undefined] and reading [panel.icon] throws a
    [TypeError], here [None]. *)
Definition sidebarButton (st : State) (panelId : Slot)
    : option SidebarButton :=
  match findPanel panelId with
  | Some panel =>
      let isOpen := has (openPanels st) panelId in
      Some (mkSidebarButton panelId isOpen (icon panel) (title panel))
  | None => None
  end.

(** The sidebar (line 191): one button per element of [panelOrder], or
    the exception of the first button that throws. *)
Definition sidebar (st : State) : option (list SidebarButton) :=
  mapM (sidebarButton st) (panelOrder st).

(** [visiblePanels.length > 0] (line 215): the panel strip is rendered
    when it holds, the placeholder text when it does not. *)
Definition showsPanelStrip (st : State) : bool :=
  bool_decide (0 < length (visiblePanels st))%nat.

(** [visiblePanels.map((p) => p.id)] (line 224), the items handed to
    [SortableContext]; reading [p.id] of an [undefined] entry throws. *)
Definition sortableItems (st : State) : option (list PanelType) :=
  mapM (fmap (M:=option) id) (visiblePanels st).

(** ** Events *)

(** The events the handlers are attached to: the three drag callbacks of
    [DndContext] (lines 219-221), the click on a sidebar button (line 199)
    and the click on a panel's close button (lines 71 and 232). *)
Inductive Event : Type :=
  | OnDragStart (active : PanelType)
  | OnDragEnd (active : PanelType) (over : option PanelType)
  | OnDragCancel
  | OnToggle (panelId : PanelType)
  | OnClose (panelId : PanelType).

Definition handleEvent (st : State) (ev : Event) : State :=
  match ev with
  | OnDragStart active => handleDragStart st active
  | OnDragEnd active over => handleDragEnd st active over
  | OnDragCancel => handleDragCancel st
  | OnToggle panelId => togglePanel st panelId
  | OnClose panelId => closePanel st panelId
  end.

(** Events are handled one after the other, oldest first. *)
Definition handleEvents (st : State) (evs : list Event) : State :=
  foldl handleEvent st evs.

Definition isDragEvent (ev : Event) : bool :=
  match ev with
  | OnDragStart _ | OnDragEnd _ _ | OnDragCancel => true
  | OnToggle _ | OnClose _ => false
  end.

(** The identities shown in the panel strip, left to right. *)
Definition visibleIds (st : State) : list PanelType :=
  filter (λ p, p ∈ openPanels st) (orderIds (panelOrder st)).

(** * Properties *)

(** ** Array primitives *)

Section JsArrayFacts.
Context {T : Type} `{EqDecision T}.
Implicit Types (l : list T) (x y undef : T) (i j : nat).

Lemma indexOf_from_position l x k :
  indexOf_from k l x
  = if decide (x ∈ l) then k + Z.of_nat (position x l) else -1.
Proof.
  revert k. induction l as [|y l IH]; intros k; cbn [indexOf_from position].
  - rewrite decide_False; [done | apply not_elem_of_nil].
  - destruct (decide (y = x)) as [->|Hne].
    + rewrite decide_True by left. lia.
    + rewrite IH. destruct (decide (x ∈ l)) as [Hin|Hin].
      * rewrite decide_True by (by right). lia.
      * rewrite decide_False; [done|].
        intros [?|?]%elem_of_cons; [congruence | done].
Qed.

Lemma indexOf_present l x :
  x ∈ l → indexOf l x = Z.of_nat (position x l).
Proof.
  intros Hin. unfold indexOf. rewrite indexOf_from_position.
  by rewrite decide_True.
Qed.

Lemma indexOf_absent l x : x ∉ l → indexOf l x = -1.
Proof.
  intros Hin. unfold indexOf. rewrite indexOf_from_position.
  by rewrite decide_False.
Qed.

Lemma position_lookup l x : x ∈ l → l !! position x l = Some x.
Proof.
  induction l as [|y l IH]; simpl.
  - by intros ?%elem_of_nil.
  - intros Hin. destruct (decide (y = x)) as [->|Hne]; [done|].
    simpl. apply IH. apply elem_of_cons in Hin as [?|?]; [congruence|done].
Qed.

Lemma position_first l x k :
  (k < position x l)%nat → l !! k ≠ Some x.
Proof.
  revert k. induction l as [|y l IH]; intros k; simpl; [lia|].
  destruct (decide (y = x)) as [->|Hne]; [lia|].
  destruct k as [|k]; simpl; [congruence|].
  intros Hk. apply IH. lia.
Qed.

Lemma position_lt l x : x ∈ l → (position x l < length l)%nat.
Proof. intros Hin. eapply lookup_lt_Some, position_lookup, Hin. Qed.

Lemma removeFirst_delete l x : removeFirst x l = delete (position x l) l.
Proof.
  induction l as [|y l IH]; simpl; [done|].
  destruct (decide (y = x)); simpl; [done | by rewrite IH].
Qed.

Lemma actualStart_nat (len i : nat) :
  (i ≤ len)%nat → actualStart len (Z.of_nat i) = i.
Proof.
  intros Hi. unfold actualStart.
  destruct (Z.ltb_spec (Z.of_nat i) 0); lia.
Qed.

Lemma actualStart_last (len : nat) : actualStart len (-1) = (len - 1)%nat.
Proof. unfold actualStart. destruct (Z.ltb_spec (-1) 0); lia. Qed.

Lemma target_nat (len j : nat) :
  (if Z.of_nat j <? 0 then Z.of_nat len + Z.of_nat j else Z.of_nat j)
  = Z.of_nat j.
Proof. destruct (Z.ltb_spec (Z.of_nat j) 0); lia. Qed.

(** On the empty array there is nothing to take out, and [undefined] is
    what gets inserted. *)
Example arrayMove_empty undef :
  arrayMove undef [] (-1) (-1) = [undef].
Proof. reflexivity. Qed.

(** [a.splice(i, 1)] inside the array removes exactly [a[i]]. *)
Lemma splice_remove l i x :
  l !! i = Some x → splice l (Z.of_nat i) 1 [] = (delete i l, [x]).
Proof.
  intros Hi. pose proof (lookup_lt_Some _ _ _ Hi) as Hlt.
  unfold splice. rewrite actualStart_nat by lia.
  replace (Nat.min 1 (length l - i)) with 1%nat by lia.
  rewrite (drop_S _ _ _ Hi), app_nil_l.
  replace (i + 1)%nat with (S i) by lia.
  by rewrite <- delete_take_drop.
Qed.

(** [a.splice(j, 0, x)] up to the end of the array puts [x] at [j]. *)
Lemma splice_insert l j x :
  (j ≤ length l)%nat → splice l (Z.of_nat j) 0 [x] = (insertAt j x l, []).
Proof.
  intros Hj. unfold splice, insertAt. rewrite actualStart_nat by lia.
  by rewrite Nat.min_0_l, Nat.add_0_r.
Qed.

(** Both indices inside the array: the element at [i] is taken out and
    put back so that it sits at index [j]. *)
Lemma arrayMove_in_range undef l i j x :
  l !! i = Some x → (j < length l)%nat →
  arrayMove undef l (Z.of_nat i) (Z.of_nat j) = insertAt j x (delete i l).
Proof.
  intros Hi Hj. pose proof (lookup_lt_Some _ _ _ Hi) as Hlt.
  unfold arrayMove.
  rewrite target_nat, (splice_remove _ _ _ Hi).
  cbn [default lookup list_lookup].
  rewrite splice_insert; [done|].
  rewrite length_delete by eauto. lia.
Qed.

(** A source index of [-1] designates the last element. *)
Lemma arrayMove_from_neg undef l to :
  l ≠ [] →
  arrayMove undef l (-1) to
  = arrayMove undef l (Z.of_nat (length l - 1)) to.
Proof.
  intros Hl. assert (0 < length l)%nat as Hlen.
  { destruct l; [done | simpl; lia]. }
  unfold arrayMove, splice.
  by rewrite actualStart_last, actualStart_nat by lia.
Qed.

(** A target index of [-1] designates the last index. *)
Lemma arrayMove_to_neg undef l from :
  l ≠ [] →
  arrayMove undef l from (-1)
  = arrayMove undef l from (Z.of_nat (length l - 1)).
Proof.
  intros Hl. assert (0 < length l)%nat as Hlen.
  { destruct l; [done | simpl; lia]. }
  unfold arrayMove. rewrite target_nat.
  assert ((-1 <? 0) = true) as -> by lia.
  by replace (Z.of_nat (length l) + -1) with (Z.of_nat (length l - 1))
    by lia.
Qed.

(** Whatever indices [indexOf] hands over, a non-empty array keeps its
    elements. *)
Lemma arrayMove_Permutation undef l from to :
  l ≠ [] →
  -1 ≤ from < Z.of_nat (length l) → -1 ≤ to < Z.of_nat (length l) →
  arrayMove undef l from to ≡ₚ l.
Proof.
  intros Hl Hfrom Hto. assert (0 < length l)%nat as Hlen.
  { destruct l; [done | simpl; lia]. }
  assert (∃ i, (i < length l)%nat ∧
               arrayMove undef l from to = arrayMove undef l (Z.of_nat i) to)
    as (i & Hi & ->).
  { destruct (decide (from = -1)) as [->|Hne].
    - exists (length l - 1)%nat. split; [lia|].
      by apply arrayMove_from_neg.
    - exists (Z.to_nat from). split; [lia|]. by rewrite Z2Nat.id by lia. }
  assert (∃ j, (j < length l)%nat ∧
               arrayMove undef l (Z.of_nat i) to
               = arrayMove undef l (Z.of_nat i) (Z.of_nat j))
    as (j & Hj & ->).
  { destruct (decide (to = -1)) as [->|Hne].
    - exists (length l - 1)%nat. split; [lia|].
      by apply arrayMove_to_neg.
    - exists (Z.to_nat to). split; [lia|]. by rewrite Z2Nat.id by lia. }
  destruct (lookup_lt_is_Some_2 l i Hi) as [x Hx].
  rewrite (arrayMove_in_range _ _ _ _ _ Hx Hj). unfold insertAt.
  rewrite <- Permutation_middle, take_drop.
  symmetry. by apply delete_Permutation.
Qed.

Lemma indexOf_range l x : -1 ≤ indexOf l x < Z.of_nat (length l) ∨ l = [].
Proof.
  destruct (decide (x ∈ l)) as [Hin|Hin].
  - left. rewrite indexOf_present by done.
    pose proof (position_lt _ _ Hin). lia.
  - rewrite indexOf_absent by done.
    destruct l; [by right | left; simpl; lia].
Qed.

(** The lookups of a list where the element at [i] was moved to [j]. *)
Lemma insertAt_delete_lookup l i j x k :
  l !! i = Some x → (j < length l)%nat →
  insertAt j x (delete i l) !! k
  = if decide (k = j) then Some x
    else if decide (i ≤ k < j)%nat then l !! S k
    else if decide (j < k ≤ i)%nat then l !! pred k
    else l !! k.
Proof.
  intros Hi Hj. pose proof (lookup_lt_Some _ _ _ Hi) as Hlt.
  assert (length (delete i l) = (length l - 1)%nat) as Hlen.
  { rewrite length_delete by eauto. lia. }
  assert (length (take j (delete i l)) = j) as Htake.
  { rewrite length_take, Hlen. lia. }
  unfold insertAt. destruct (decide (k < j)%nat) as [Hkj|Hkj].
  - rewrite lookup_app_l by lia.
    rewrite lookup_take_lt by lia.
    rewrite decide_False by lia. rewrite list_lookup_delete.
    destruct (decide (k < i)%nat).
    + by rewrite !decide_False by lia.
    + by rewrite decide_True by lia.
  - rewrite lookup_app_r by lia. rewrite Htake.
    destruct (decide (k = j)) as [->|Hne].
    + by rewrite Nat.sub_diag.
    + rewrite decide_False by lia.
      destruct (k - j)%nat as [|d] eqn:Hd; [lia|].
      rewrite lookup_cons, lookup_drop, list_lookup_delete.
      replace (j + d)%nat with (pred k) by lia.
      destruct (decide (pred k < i)%nat).
      * by rewrite decide_True by lia.
      * rewrite decide_False by lia. f_equal. lia.
Qed.
End JsArrayFacts.

(** ** Reordering *)

Lemma reorderItems_in_range (items : list Slot) (active over : PanelType) :
  Id active ∈ items → Id over ∈ items →
  reorderItems items active over
  = insertAt (position (Id over) items) (Id active)
      (delete (position (Id active) items) items).
Proof.
  intros Ha Ho. unfold reorderItems.
  rewrite !indexOf_present by done.
  apply arrayMove_in_range; [by apply position_lookup | by apply position_lt].
Qed.

Lemma reorderItems_Permutation (items : list Slot) (active over : PanelType) :
  items ≠ [] → reorderItems items active over ≡ₚ items.
Proof.
  intros Hne. unfold reorderItems.
  apply arrayMove_Permutation; [done| |].
  - by destruct (indexOf_range items (Id active)).
  - by destruct (indexOf_range items (Id over)).
Qed.

Lemma handleDragEnd_order_distinct st active over :
  active ≠ over →
  panelOrder (handleDragEnd st active (Some over))
  = reorderItems (panelOrder st) active over.
Proof. intros Hne. unfold handleDragEnd. by rewrite decide_True. Qed.

Lemma handleDragEnd_order_same st active :
  panelOrder (handleDragEnd st active (Some active)) = panelOrder st.
Proof. unfold handleDragEnd. by rewrite decide_False by (intros ?; done). Qed.

Lemma registryIds_eq : registryIds = [Id map; Id music; Id chat].
Proof. reflexivity. Qed.

(** C1. For distinct identities [fromId] and [toId] that both occur in
    Order, [reorder(fromId, toId)] (a drag of [fromId] dropped over
    [toId]) takes [fromId] out of Order and puts it back at the index
    [toId] had: the result is the specification's [reorder_spec], [fromId]
    sits at [toId]'s former index, the length is kept, the elements
    between the two indices move by one towards [fromId]'s former index
    and all the others stay where they were. *)
Theorem reorder_moves_from_to (st : State) (fromId toId : PanelType)
    (Hne : fromId ≠ toId)
    (Hfrom : Id fromId ∈ panelOrder st)
    (Hto : Id toId ∈ panelOrder st) :
  let order := panelOrder st in
  let order' := panelOrder (handleDragEnd st fromId (Some toId)) in
  let i := position (Id fromId) order in
  let j := position (Id toId) order in
  order' = reorder_spec order (Id fromId) (Id toId)
  ∧ order !! i = Some (Id fromId)
  ∧ order !! j = Some (Id toId)
  ∧ order' !! j = Some (Id fromId)
  ∧ length order' = length order
  ∧ ∀ k : nat, k ≠ j →
      order' !! k = if decide (i ≤ k < j)%nat then order !! S k
                    else if decide (j < k ≤ i)%nat then order !! pred k
                    else order !! k.
Proof.
  intros order order' i j.
  pose proof (position_lookup _ _ Hfrom) as Hi.
  pose proof (position_lookup _ _ Hto) as Hj.
  pose proof (position_lt _ _ Hto) as Hjlt.
  assert (order' = insertAt j (Id fromId) (delete i order)) as Heq.
  { unfold order'. rewrite handleDragEnd_order_distinct by done.
    by apply reorderItems_in_range. }
  split_and!; try done.
  - rewrite Heq. unfold reorder_spec.
    rewrite decide_False by (intros [= ?]; done).
    by rewrite removeFirst_delete.
  - rewrite Heq, (insertAt_delete_lookup _ _ _ _ _ Hi Hjlt).
    by rewrite decide_True.
  - unfold order'. rewrite handleDragEnd_order_distinct by done.
    apply Permutation_length, reorderItems_Permutation.
    intros Hnil. apply lookup_lt_Some in Hi.
    unfold order in Hnil. rewrite Hnil in Hi. simpl in Hi. lia.
  - intros k Hk.
    rewrite Heq, (insertAt_delete_lookup _ _ _ _ _ Hi Hjlt).
    by rewrite decide_False.
Qed.

(** The scenario of C1: on Order = [map, music, chat], [reorder(map, chat)]
    yields [music, chat, map]. *)
Lemma reorder_moves_from_to_scenario :
  panelOrder (handleDragEnd initialState map (Some chat))
  = [Id music; Id chat; Id map].
Proof.
  refine (proj1 (reorder_moves_from_to initialState map chat _ _ _)).
  - discriminate.
  - apply list_elem_of_In. simpl. tauto.
  - apply list_elem_of_In. simpl. tauto.
Defined.

(** C2. A reorder applied to an Order that is a permutation of the
    Registry's identities yields a permutation of them again: three
    entries, no duplicate, every identity present and nothing else. *)
Theorem reorder_preserves_permutation (st : State) (fromId toId : PanelType)
    (Hperm : panelOrder st ≡ₚ registryIds) :
  let order' := panelOrder (handleDragEnd st fromId (Some toId)) in
  order' ≡ₚ registryIds
  ∧ NoDup order'
  ∧ length order' = 3%nat
  ∧ (∀ p : PanelType, Id p ∈ order')
  ∧ undefined ∉ order'.
Proof.
  intros order'.
  assert (order' ≡ₚ registryIds) as Hperm'.
  { unfold order'. destruct (decide (fromId = toId)) as [->|Hne].
    - by rewrite handleDragEnd_order_same.
    - rewrite handleDragEnd_order_distinct by done.
      rewrite reorderItems_Permutation; [done|].
      intros Hnil. rewrite Hnil in Hperm.
      by apply Permutation_nil_l in Hperm. }
  split_and!; [done|..].
  - rewrite Hperm'. compute_done.
  - by rewrite Hperm'.
  - intros p. rewrite Hperm'. destruct p; compute_done.
  - rewrite Hperm'. compute_done.
Qed.

Lemma reorder_preserves_permutation_initial :
  panelOrder (handleDragEnd initialState music (Some map)) ≡ₚ registryIds.
Proof.
  refine (proj1 (reorder_preserves_permutation initialState music map _)).
  reflexivity.
Defined.

(** ** Reordering with an identity that Order does not hold *)

Section AbsentIndex.
Context {T : Type} `{EqDecision T}.
Implicit Types (l : list T) (x undef : T) (i j : nat).

Lemma insertAt_end l x n : (length l ≤ n)%nat → insertAt n x l = l ++ [x].
Proof. intros Hn. unfold insertAt. by rewrite take_ge, drop_ge. Qed.

Lemma delete_last_take l :
  delete (length l - 1)%nat l = take (length l - 1)%nat l.
Proof.
  rewrite delete_take_drop, drop_ge, app_nil_r by lia. done.
Qed.

Lemma take_snoc_last l x :
  l !! (length l - 1)%nat = Some x → take (length l - 1)%nat l ++ [x] = l.
Proof.
  intros Hx. rewrite <- (take_drop (length l - 1)%nat l) at 3.
  rewrite (drop_S _ _ _ Hx), drop_ge by lia. done.
Qed.

(** Target absent: the moved element goes to the end. *)
Lemma arrayMove_to_absent undef l i x :
  l !! i = Some x →
  arrayMove undef l (Z.of_nat i) (-1) = delete i l ++ [x].
Proof.
  intros Hi. pose proof (lookup_lt_Some _ _ _ Hi) as Hlt.
  rewrite arrayMove_to_neg by (intros ->; simpl in Hlt; lia).
  rewrite (arrayMove_in_range _ _ _ _ _ Hi) by lia.
  apply insertAt_end. rewrite length_delete by eauto. lia.
Qed.

(** Source absent: the last element is the one that moves. *)
Lemma arrayMove_from_absent undef l j x :
  last l = Some x → (j < length l)%nat →
  arrayMove undef l (-1) (Z.of_nat j)
  = insertAt j x (take (length l - 1)%nat l).
Proof.
  intros Hx Hj. rewrite last_lookup in Hx.
  replace (pred (length l)) with (length l - 1)%nat in Hx by lia.
  rewrite arrayMove_from_neg by (intros ->; simpl in Hj; lia).
  rewrite (arrayMove_in_range _ _ _ _ _ Hx Hj).
  by rewrite delete_last_take.
Qed.

(** Both absent: the last element is taken out and appended again. *)
Lemma arrayMove_both_absent undef l :
  l ≠ [] → arrayMove undef l (-1) (-1) = l.
Proof.
  intros Hl. assert (0 < length l)%nat as Hlen.
  { destruct l; [done | simpl; lia]. }
  destruct (lookup_lt_is_Some_2 l (length l - 1)%nat) as [x Hx]; [lia|].
  rewrite arrayMove_from_neg by done.
  rewrite (arrayMove_to_absent _ _ _ _ Hx).
  rewrite delete_last_take. by apply take_snoc_last.
Qed.
End AbsentIndex.

(** The updater on an array that lacks an identity: with [chat] absent
    from [map, music], a drop of [chat] on [map] raises nothing and moves
    the last element.  The component itself never holds such an Order
    (see the reachable states below). *)
Lemma reorder_absent_changes_order :
  (Id chat ∉ panelOrder stateWithoutChat)
  ∧ panelOrder (handleDragEnd stateWithoutChat chat (Some map))
    = [Id music; Id map]
  ∧ panelOrder (handleDragEnd stateWithoutChat chat (Some map))
    ≠ panelOrder stateWithoutChat.
Proof.
  split_and!; [compute_done | reflexivity | discriminate].
Qed.

(** What the updater does when an identity is missing from a non-empty
    array, which happens in no state the component can be in: for two
    distinct identities the result is a permutation of the array; when
    only [toId] is absent, [fromId] is moved to the end; when only
    [fromId] is absent, the last element is moved to [toId]'s index; when
    both are absent, the array stays as it is. *)
Lemma reorder_absent_identity (st : State) (fromId toId : PanelType)
    (Hne : fromId ≠ toId)
    (Hnonempty : panelOrder st ≠ [])
    (Habsent : Id fromId ∉ panelOrder st ∨ Id toId ∉ panelOrder st) :
  let order := panelOrder st in
  let order' := panelOrder (handleDragEnd st fromId (Some toId)) in
  order' ≡ₚ order
  ∧ (Id fromId ∈ order → Id toId ∉ order →
       order' = removeFirst (Id fromId) order ++ [Id fromId])
  ∧ (Id fromId ∉ order → Id toId ∈ order →
       ∃ x, last order = Some x
            ∧ order' = insertAt (position (Id toId) order) x
                         (take (length order - 1)%nat order))
  ∧ (Id fromId ∉ order → Id toId ∉ order → order' = order).
Proof.
  intros order order'. unfold order'.
  rewrite handleDragEnd_order_distinct by done. fold order.
  split_and!.
  - by apply reorderItems_Permutation.
  - intros Hfrom Hto. unfold reorderItems.
    rewrite (indexOf_present _ _ Hfrom), (indexOf_absent _ _ Hto).
    rewrite removeFirst_delete.
    by apply arrayMove_to_absent, position_lookup.
  - intros Hfrom Hto.
    destruct (last order) as [x|] eqn:Hlast.
    + exists x. split; [done|]. unfold reorderItems.
      rewrite (indexOf_absent _ _ Hfrom), (indexOf_present _ _ Hto).
      apply arrayMove_from_absent; [done | by apply position_lt].
    + by apply last_None in Hlast.
  - intros Hfrom Hto. unfold reorderItems.
    rewrite (indexOf_absent _ _ Hfrom), (indexOf_absent _ _ Hto).
    by apply arrayMove_both_absent.
Qed.

(** ** Drag coordination *)

(** C8. [reorder(a, a)] leaves Order as it is; so does a drag-end with no
    [over] target; and whatever the target, a drag-end leaves Visibility
    alone and clears ActiveDrag. *)
Theorem dragEnd_identity_law (st : State) (a : PanelType)
    (over : option PanelType) :
  panelOrder (handleDragEnd st a (Some a)) = panelOrder st
  ∧ panelOrder (handleDragEnd st a None) = panelOrder st
  ∧ reorder_spec (panelOrder st) (Id a) (Id a) = panelOrder st
  ∧ handleDragEnd st a (Some a) = handleDragCancel st
  ∧ handleDragEnd st a None = handleDragCancel st
  ∧ activeId (handleDragEnd st a over) = None.
Proof.
  split_and!.
  - apply handleDragEnd_order_same.
  - reflexivity.
  - unfold reorder_spec. by rewrite decide_True.
  - unfold handleDragEnd. by rewrite decide_False by (intros ?; done).
  - reflexivity.
  - unfold handleDragEnd. destruct over as [o|]; [|done].
    by destruct (decide (a ≠ o)).
Qed.

(** C7. A drag-start followed by a drag-cancel leaves Order and Visibility
    as they were before the drag-start and ActiveDrag cleared; in between,
    ActiveDrag holds the dragged identity and nothing else has changed. *)
Theorem dragStart_dragCancel (st : State) (p : PanelType) :
  let started := handleDragStart st p in
  let cancelled := handleDragCancel started in
  panelOrder cancelled = panelOrder st
  ∧ openPanels cancelled = openPanels st
  ∧ activeId cancelled = None
  ∧ activeId started = Some p
  ∧ panelOrder started = panelOrder st
  ∧ openPanels started = openPanels st.
Proof. by split_and!. Qed.

(** C6. [toggle] and [close] leave Order (and ActiveDrag) as they are, also
    over any sequence of such calls, and a reorder leaves Visibility as it
    is. *)
Theorem order_visibility_independent (st : State) (p fromId toId : PanelType)
    (ops : list VisOp) :
  panelOrder (togglePanel st p) = panelOrder st
  ∧ panelOrder (closePanel st p) = panelOrder st
  ∧ panelOrder (runOps st ops) = panelOrder st
  ∧ openPanels (handleDragEnd st fromId (Some toId)) = openPanels st
  ∧ openPanels (handleDragEnd st fromId None) = openPanels st.
Proof.
  split_and!; try done.
  - revert st. induction ops as [|op ops IH]; intros st; [done|].
    cbn [runOps foldl]. fold (runOps (applyOp st op) ops).
    rewrite IH. by destruct op.
  - unfold handleDragEnd. by destruct (decide (fromId ≠ toId)).
Qed.

(** C10. At startup Order is [map, music, chat], every panel is visible
    and no drag is active; the panel strip therefore shows the three
    panels and not the placeholder. *)
Theorem initialState_values :
  panelOrder initialState = [Id map; Id music; Id chat]
  ∧ (∀ p : PanelType, p ∈ openPanels initialState)
  ∧ activeId initialState = None
  ∧ entryId <$> visiblePanels initialState
    = [Some map; Some music; Some chat].
Proof.
  split_and!; [done | | done | ].
  - intros p. unfold initialState. cbn [openPanels].
    destruct p; set_solver.
  - unfold visiblePanels. cbn [openPanels panelOrder initialState].
    cbn [List.filter has].
    rewrite !bool_decide_eq_true_2 by set_solver. done.
Qed.

(** ** Visibility *)

Lemma elem_of_closeSet (s : gset PanelType) (p q : PanelType) :
  q ∈ closeSet s p ↔ q ∈ s ∧ q ≠ p.
Proof. unfold closeSet. set_solver. Qed.

Lemma elem_of_toggleSet (s : gset PanelType) (p q : PanelType) :
  q ∈ toggleSet s p ↔ if decide (q = p) then q ∉ s else q ∈ s.
Proof.
  unfold toggleSet.
  destruct (decide (p ∈ s)), (decide (q = p)); set_solver.
Qed.

Lemma closeSet_absent (s : gset PanelType) (p : PanelType) :
  p ∉ s → closeSet s p = s.
Proof. unfold closeSet. set_solver. Qed.

(** C9. [close(id)] removes [id] from Visibility and nothing else; a second
    [close(id)] right after it changes nothing; and closing a panel that
    is not open returns the state as it was. *)
Theorem close_idempotent (st : State) (p : PanelType) :
  (p ∉ openPanels (closePanel st p))
  ∧ (∀ q : PanelType,
       q ∈ openPanels (closePanel st p) ↔ q ∈ openPanels st ∧ q ≠ p)
  ∧ closePanel (closePanel st p) p = closePanel st p
  ∧ (p ∉ openPanels st → closePanel st p = st).
Proof.
  split_and!.
  - cbn [closePanel openPanels]. rewrite elem_of_closeSet. tauto.
  - intros q. cbn [closePanel openPanels]. apply elem_of_closeSet.
  - unfold closePanel. cbn [panelOrder openPanels activeId]. f_equal.
    apply closeSet_absent. rewrite elem_of_closeSet. tauto.
  - intros Hp. destruct st as [order vis act]. unfold closePanel.
    cbn [panelOrder openPanels activeId] in *. f_equal.
    by apply closeSet_absent.
Qed.

Lemma close_idempotent_witness :
  closePanel stateWithoutChat music = stateWithoutChat.
Proof.
  refine (proj2 (proj2 (proj2 (close_idempotent stateWithoutChat music))) _).
  cbn [openPanels stateWithoutChat]. apply not_elem_of_singleton.
  discriminate.
Defined.

(** ** The visible panels *)

Lemma findPanel_Id (p : PanelType) :
  ∃ d, findPanel (Id p) = Some d ∧ id d = p ∧ d ∈ allPanels.
Proof.
  destruct p; eexists; (split; [reflexivity|]); (split; [reflexivity|]);
    apply list_elem_of_In; simpl; tauto.
Qed.

Lemma has_true_iff (s : gset PanelType) (x : Slot) :
  has s x = true ↔ ∃ p, x = Id p ∧ p ∈ s.
Proof.
  destruct x as [p|]; simpl.
  - rewrite bool_decide_eq_true. split; [by exists p|].
    by intros (q & [= ->] & Hq).
  - split; [done | by intros (q & ? & _)].
Qed.

Lemma visiblePanels_ids (order : list Slot) (s : gset PanelType)
    (a : option PanelType) :
  entryId <$> visiblePanels {| panelOrder := order; openPanels := s;
                               activeId := a |}
  = Some <$> filter (λ p, p ∈ s) (orderIds order).
Proof.
  unfold visiblePanels, orderIds. cbn [panelOrder openPanels].
  induction order as [|x order IH]; [done|].
  cbn [List.filter omap list_omap].
  destruct x as [p|]; cbn [has slotId].
  - rewrite filter_cons. destruct (decide (p ∈ s)) as [Hp|Hp].
    + rewrite bool_decide_eq_true_2 by done.
      cbn [List.map fmap list_fmap]. f_equal; [|exact IH].
      by destruct (findPanel_Id p) as (d & -> & <- & _).
    + by rewrite bool_decide_eq_false_2 by done.
  - exact IH.
Qed.

Lemma elem_of_orderIds (order : list Slot) (p : PanelType) :
  p ∈ orderIds order ↔ Id p ∈ order.
Proof.
  unfold orderIds. rewrite list_elem_of_omap. split.
  - by intros ([q|] & Hin & [= ->]).
  - intros Hin. by exists (Id p).
Qed.

Lemma visiblePanels_empty (order : list Slot) (a : option PanelType) :
  visiblePanels {| panelOrder := order; openPanels := ∅; activeId := a |}
  = [].
Proof.
  unfold visiblePanels. cbn [panelOrder openPanels].
  induction order as [|[p|] order IH]; [done|..]; cbn [List.filter has].
  - by rewrite bool_decide_eq_false_2 by apply not_elem_of_empty.
  - done.
Qed.

(** C3. The identities of [visibleOrdered()] are those of Order that are
    in Visibility, in Order's sequence; every entry is the Registry's
    definition of its identity, and that identity is in Visibility; an
    identity is shown exactly when it is in Order and in Visibility; and
    with an empty Visibility the sequence is empty. *)
Theorem visiblePanels_restricts_order (st : State) :
  let visible := visiblePanels st in
  let shown := filter (λ p, p ∈ openPanels st) (orderIds (panelOrder st)) in
  entryId <$> visible = Some <$> shown
  ∧ shown `sublist_of` orderIds (panelOrder st)
  ∧ Forall (λ entry, ∃ d, entry = Some d ∧ d ∈ allPanels
                          ∧ id d ∈ openPanels st) visible
  ∧ (∀ p : PanelType,
       Some p ∈ entryId <$> visible
       ↔ Id p ∈ panelOrder st ∧ p ∈ openPanels st)
  ∧ visiblePanels {| panelOrder := panelOrder st; openPanels := ∅;
                     activeId := activeId st |} = [].
Proof.
  intros visible shown.
  assert (entryId <$> visible = Some <$> shown) as Hids.
  { destruct st as [order s a]. apply visiblePanels_ids. }
  split_and!.
  - exact Hids.
  - apply sublist_filter.
  - unfold visible, visiblePanels. apply Forall_forall.
    intros entry Hentry.
    apply list_elem_of_In, in_map_iff in Hentry as (x & <- & Hx).
    apply filter_In in Hx as [_ Hx].
    apply has_true_iff in Hx as (p & -> & Hp).
    destruct (findPanel_Id p) as (d & Hd & Hid & Hin).
    exists d. by rewrite Hid.
  - intros p. rewrite Hids. rewrite (list_elem_of_fmap_inj Some).
    unfold shown. rewrite list_elem_of_filter, elem_of_orderIds. tauto.
  - apply visiblePanels_empty.
Qed.

(** The scenario of the specification: Order [map, music, chat] with
    [music] closed shows [map, chat]. *)
Lemma visiblePanels_scenario :
  Some map ∈ entryId <$> visiblePanels (closePanel initialState music).
Proof.
  destruct (visiblePanels_restricts_order (closePanel initialState music))
    as (_ & _ & _ & Hshown & _).
  apply Hshown. split; [compute_done|].
  cbn [closePanel openPanels initialState]. apply elem_of_closeSet.
  split; [set_solver | discriminate].
Defined.

(** ** Toggle parity *)

Lemma runOps_cons (st : State) (op : VisOp) (ops : list VisOp) :
  runOps st (op :: ops) = runOps (applyOp st op) ops.
Proof. reflexivity. Qed.

Lemma runOps_app (st : State) (ops1 ops2 : list VisOp) :
  runOps st (ops1 ++ ops2) = runOps (runOps st ops1) ops2.
Proof. apply foldl_app. Qed.

Lemma sinceLastClose_cons_None (p : PanelType) (op : VisOp)
    (ops : list VisOp) :
  sinceLastClose p (op :: ops) = None →
  sinceLastClose p ops = None ∧ op ≠ Close p.
Proof.
  cbn [sinceLastClose]. destruct (sinceLastClose p ops); [done|].
  destruct op as [q|q]; [done|].
  destruct (decide (q = p)); [done|]. intros _. split; [done|congruence].
Qed.

Lemma sinceLastClose_Some (p : PanelType) (ops tail : list VisOp) :
  sinceLastClose p ops = Some tail →
  ∃ pre, ops = pre ++ Close p :: tail ∧ sinceLastClose p tail = None.
Proof.
  revert tail. induction ops as [|op ops IH]; intros tail; [done|].
  cbn [sinceLastClose]. destruct (sinceLastClose p ops) as [t|] eqn:Hrest.
  - intros [= <-]. destruct (IH t eq_refl) as (pre & -> & Hnone).
    by exists (op :: pre).
  - destruct op as [q|q]; [done|].
    destruct (decide (q = p)) as [->|]; [|done].
    intros [= <-]. by exists [].
Qed.

(** Without a [close(p)] among the calls, each [toggle(p)] flips the
    membership of [p] and no other call touches it. *)
Lemma toggle_parity_no_close (p : PanelType) (ops : list VisOp) (st : State) :
  sinceLastClose p ops = None →
  p ∈ openPanels (runOps st ops)
  ↔ (if decide (p ∈ openPanels st)
     then Nat.even (toggles p ops) = true
     else Nat.odd (toggles p ops) = true).
Proof.
  revert st. induction ops as [|op ops IH]; intros st Hnone.
  - cbn [runOps foldl toggles]. destruct (decide (p ∈ openPanels st)).
    + by split.
    + split; [done | discriminate].
  - apply sinceLastClose_cons_None in Hnone as [Hnone Hop].
    rewrite runOps_cons, (IH _ Hnone). clear IH.
    destruct op as [q|q]; cbn [applyOp togglePanel closePanel openPanels
                                 toggles].
    + destruct (decide (q = p)) as [->|Hq].
      * rewrite Nat.even_succ, Nat.odd_succ.
        destruct (decide (p ∈ openPanels st)) as [Hp|Hp].
        -- rewrite decide_False; [done|].
           rewrite elem_of_toggleSet, decide_True by done. tauto.
        -- rewrite decide_True; [done|].
           by rewrite elem_of_toggleSet, decide_True by done.
      * destruct (decide (p ∈ openPanels st)) as [Hp|Hp].
        -- rewrite decide_True; [done|].
           by rewrite elem_of_toggleSet, decide_False by done.
        -- rewrite decide_False; [done|].
           by rewrite elem_of_toggleSet, decide_False by done.
    + assert (p ≠ q) as Hq by congruence.
      destruct (decide (p ∈ openPanels st)) as [Hp|Hp].
      * rewrite decide_True; [done|]. by apply elem_of_closeSet.
      * rewrite decide_False; [done|]. rewrite elem_of_closeSet. tauto.
Qed.

(** C4. After any sequence of [toggle] and [close] calls, [id] is in
    Visibility exactly when the number of [toggle(id)] calls made after
    the last [close(id)] is odd; when the sequence has no [close(id)], all
    its [toggle(id)] calls count, and the number must be odd if [id] was
    absent before the first call and even if it was present. *)
Theorem toggle_parity (st : State) (p : PanelType) (ops : list VisOp) :
  let st' := runOps st ops in
  match sinceLastClose p ops with
  | Some tail => p ∈ openPanels st' ↔ Nat.odd (toggles p tail) = true
  | None =>
      if decide (p ∈ openPanels st)
      then p ∈ openPanels st' ↔ Nat.even (toggles p ops) = true
      else p ∈ openPanels st' ↔ Nat.odd (toggles p ops) = true
  end.
Proof.
  intros st'. unfold st'.
  destruct (sinceLastClose p ops) as [tail|] eqn:Hsince.
  - apply sinceLastClose_Some in Hsince as (pre & -> & Hnone).
    rewrite runOps_app, runOps_cons.
    rewrite (toggle_parity_no_close _ _ _ Hnone).
    rewrite decide_False; [done|].
    cbn [applyOp closePanel openPanels]. rewrite elem_of_closeSet. tauto.
  - pose proof (toggle_parity_no_close p ops st Hsince) as Hparity.
    by destruct (decide (p ∈ openPanels st)).
Qed.

(** Three toggles after a close open the panel again, whatever came
    before. *)
Lemma toggle_parity_scenario :
  music ∈ openPanels
            (runOps initialState
               [Toggle music; Toggle chat; Close music; Toggle music;
                Close chat; Toggle music; Toggle music]).
Proof.
  apply (toggle_parity initialState music
           [Toggle music; Toggle chat; Close music; Toggle music;
            Close chat; Toggle music; Toggle music]).
  reflexivity.
Defined.

(** * Further properties of the component *)

(** ** The items of the sortable strip *)

Lemma sortableItems_visibleIds (st : State) :
  sortableItems st = Some (visibleIds st).
Proof.
  unfold sortableItems, visibleIds. apply mapM_Some_2.
  apply (Forall2_fmap entryId Some eq), list_eq_Forall2.
  destruct st as [order s a]. apply visiblePanels_ids.
Qed.

Lemma elem_of_visibleIds (st : State) (p : PanelType) :
  p ∈ visibleIds st ↔ Id p ∈ panelOrder st ∧ p ∈ openPanels st.
Proof.
  unfold visibleIds. rewrite list_elem_of_filter, elem_of_orderIds. tauto.
Qed.

Lemma orderIds_NoDup (order : list Slot) : NoDup order → NoDup (orderIds order).
Proof.
  unfold orderIds. induction 1 as [|x order Hx Hnd IH]; [constructor|].
  destruct x as [p|]; cbn [omap list_omap slotId]; [|done].
  constructor; [|done]. by rewrite elem_of_orderIds.
Qed.

(** X1. Reading [p.id] of every visible panel never throws: the sortable
    items are always defined.  They hold an identity exactly when it is in
    Order and open, they follow Order's sequence, and no identity occurs
    twice in them when none occurs twice in Order (the items double as
    React keys). *)
Theorem sortableItems_defined (st : State) :
  ∃ items : list PanelType,
    sortableItems st = Some items
    ∧ length items = length (visiblePanels st)
    ∧ items `sublist_of` orderIds (panelOrder st)
    ∧ (∀ p : PanelType,
         p ∈ items ↔ Id p ∈ panelOrder st ∧ p ∈ openPanels st)
    ∧ (NoDup (panelOrder st) → NoDup items).
Proof.
  exists (visibleIds st).
  pose proof (sortableItems_visibleIds st) as Hitems. split_and!.
  - done.
  - symmetry. eapply length_mapM, Hitems.
  - apply sublist_filter.
  - apply elem_of_visibleIds.
  - intros Hnd. by apply NoDup_filter, orderIds_NoDup.
Qed.

Lemma sortableItems_defined_initial :
  ∃ items : list PanelType,
    sortableItems initialState = Some items ∧ NoDup items.
Proof.
  destruct (sortableItems_defined initialState)
    as (items & Hitems & _ & _ & _ & Hnd).
  exists items. split; [done|]. apply Hnd. compute_done.
Defined.

(** ** The sidebar *)

Lemma findPanel_undefined : findPanel undefined = None.
Proof. reflexivity. Qed.

Lemma sidebarButton_Id (st : State) (p : PanelType) :
  ∃ d, d ∈ allPanels ∧ id d = p
       ∧ sidebarButton st (Id p)
         = Some (mkSidebarButton (Id p) (bool_decide (p ∈ openPanels st))
                   (icon d) (title d)).
Proof.
  destruct (findPanel_Id p) as (d & Hd & Hid & Hin).
  exists d. split_and!; [done..|]. unfold sidebarButton. by rewrite Hd.
Qed.

Lemma sidebarButton_None (st : State) (x : Slot) :
  sidebarButton st x = None ↔ x = undefined.
Proof.
  destruct x as [p|].
  - destruct (sidebarButton_Id st p) as (d & _ & _ & ->). by split.
  - by split.
Qed.

(** X2. Rendering the sidebar throws exactly when Order holds an
    [undefined] element.  When it does not throw there is one button per
    element of Order, in Order's sequence; each button carries the title
    and icon of the Registry entry of its identity, and is styled as open
    exactly when that identity is in Visibility. *)
Theorem sidebar_buttons (st : State) :
  (sidebar st = None ↔ undefined ∈ panelOrder st)
  ∧ ∀ buttons : list SidebarButton,
      sidebar st = Some buttons →
      buttonKey <$> buttons = panelOrder st
      ∧ Forall (λ b, ∃ d, d ∈ allPanels
                     ∧ buttonKey b = Id (id d)
                     ∧ buttonTitle b = title d
                     ∧ buttonIcon b = icon d
                     ∧ (buttonOpen b = true ↔ id d ∈ openPanels st))
          buttons.
Proof.
  unfold sidebar. split.
  - rewrite mapM_None, Exists_exists. split.
    + intros (x & Hx & Hnone). by apply sidebarButton_None in Hnone as ->.
    + intros Hin. by exists undefined.
  - intros buttons Hsome. apply mapM_Some_1 in Hsome.
    induction Hsome as [|x b order buttons Hb _ [IHkeys IHall]];
      [by split|].
    destruct x as [p|]; [|done].
    destruct (sidebarButton_Id st p) as (d & Hin & Hid & Hd).
    rewrite Hd in Hb. injection Hb as <-. split.
    + cbn [fmap list_fmap buttonKey]. by rewrite <- IHkeys.
    + constructor; [|done]. exists d. cbn [buttonKey buttonTitle buttonIcon
                                          buttonOpen].
      rewrite Hid, bool_decide_eq_true. by split_and!.
Qed.

Lemma sidebar_buttons_initial :
  sidebar initialState ≠ None.
Proof.
  intros Hnone.
  apply (proj1 (sidebar_buttons initialState)) in Hnone.
  revert Hnone. compute_done.
Defined.

(** ** States reached by handling events *)

Lemma handleEvents_cons (st : State) (ev : Event) (evs : list Event) :
  handleEvents st (ev :: evs) = handleEvents (handleEvent st ev) evs.
Proof. reflexivity. Qed.

Lemma handleEvents_app (st : State) (evs1 evs2 : list Event) :
  handleEvents st (evs1 ++ evs2) = handleEvents (handleEvents st evs1) evs2.
Proof. apply foldl_app. Qed.

Lemma handleEvent_order_Permutation (st : State) (ev : Event) :
  panelOrder st ≠ [] → panelOrder (handleEvent st ev) ≡ₚ panelOrder st.
Proof.
  intros Hne. destruct ev as [a|a [o|]| |p|p]; try reflexivity.
  cbn [handleEvent]. destruct (decide (a = o)) as [->|Hao].
  - by rewrite handleDragEnd_order_same.
  - rewrite handleDragEnd_order_distinct by done.
    by apply reorderItems_Permutation.
Qed.

Lemma handleEvents_order_registry (st : State) (evs : list Event) :
  panelOrder st ≡ₚ registryIds →
  panelOrder (handleEvents st evs) ≡ₚ registryIds.
Proof.
  revert st. induction evs as [|ev evs IH]; intros st Hperm; [done|].
  rewrite handleEvents_cons. apply IH.
  rewrite handleEvent_order_Permutation; [done|].
  intros Hnil. rewrite Hnil in Hperm. by apply Permutation_nil_l in Hperm.
Qed.

Lemma registry_order_facts (order : list Slot) :
  order ≡ₚ registryIds →
  NoDup order ∧ (undefined ∉ order) ∧ (∀ p : PanelType, Id p ∈ order)
  ∧ length order = 3%nat.
Proof.
  intros Hperm. split_and!.
  - rewrite Hperm. compute_done.
  - rewrite Hperm. compute_done.
  - intros p. rewrite Hperm. destruct p; compute_done.
  - by rewrite Hperm.
Qed.

(** In every state the component can be in, Order holds every identity:
    neither index handed to [arrayMove] by a drag-end is ever [-1]. *)
Lemma reachable_identities_present (evs : list Event) (p : PanelType) :
  Id p ∈ panelOrder (handleEvents initialState evs)
  ∧ 0 ≤ indexOf (panelOrder (handleEvents initialState evs)) (Id p).
Proof.
  assert (Id p ∈ panelOrder (handleEvents initialState evs)) as Hin.
  { eapply registry_order_facts.
    by apply handleEvents_order_registry. }
  split; [done|]. rewrite indexOf_present by done. lia.
Qed.

(** X3. Whatever events are handled after startup, in whatever order and
    with whatever identities, Order stays a permutation of the Registry's
    identities: three entries, none twice, never [undefined]; so the
    sidebar never throws and always has three buttons. *)
Theorem reachable_order_invariant (evs : list Event) :
  let st := handleEvents initialState evs in
  panelOrder st ≡ₚ registryIds
  ∧ NoDup (panelOrder st)
  ∧ (undefined ∉ panelOrder st)
  ∧ (∃ buttons : list SidebarButton,
       sidebar st = Some buttons ∧ length buttons = 3%nat).
Proof.
  intros st.
  assert (panelOrder st ≡ₚ registryIds) as Hperm.
  { by apply handleEvents_order_registry. }
  destruct (registry_order_facts _ Hperm) as (Hnd & Hundef & _ & Hlen).
  split_and!; [done..|].
  destruct (sidebar st) as [buttons|] eqn:Hsidebar.
  - exists buttons. split; [done|].
    unfold sidebar in Hsidebar. apply length_mapM in Hsidebar. congruence.
  - unfold sidebar in Hsidebar. apply mapM_None, Exists_exists in Hsidebar
      as (x & Hx & Hnone).
    by apply sidebarButton_None in Hnone as ->.
Qed.

(** ** Panel strip or placeholder *)

Lemma visiblePanels_length (st : State) :
  length (visiblePanels st) = length (visibleIds st).
Proof. eapply length_mapM, sortableItems_visibleIds. Qed.

Lemma showsPanelStrip_false (st : State) :
  showsPanelStrip st = false ↔ visibleIds st = [].
Proof.
  unfold showsPanelStrip. rewrite bool_decide_eq_false, visiblePanels_length.
  destruct (visibleIds st); simpl; split; (done || lia).
Qed.

(** X4. The placeholder is rendered instead of the panel strip exactly
    when no identity of Order is in Visibility; otherwise the strip shows
    as many panels as [visiblePanels] has entries, at most one per
    element of Order. *)
Theorem placeholder_iff_nothing_visible (st : State) :
  (showsPanelStrip st = false
   ↔ ∀ p : PanelType, Id p ∈ panelOrder st → p ∉ openPanels st)
  ∧ (showsPanelStrip st = true
     ↔ ∃ p : PanelType, Id p ∈ panelOrder st ∧ p ∈ openPanels st)
  ∧ (length (visiblePanels st) ≤ length (panelOrder st))%nat.
Proof.
  split_and!.
  - rewrite showsPanelStrip_false. split.
    + intros Hnil p Hin Hopen.
      assert (p ∈ visibleIds st) as Hp by by apply elem_of_visibleIds.
      rewrite Hnil in Hp. by apply elem_of_nil in Hp.
    + intros Hnone. destruct (visibleIds st) as [|p ids] eqn:Hids; [done|].
      assert (p ∈ visibleIds st) as Hp by (rewrite Hids; left).
      apply elem_of_visibleIds in Hp as [Hin Hopen]. by destruct (Hnone p).
  - destruct (showsPanelStrip st) eqn:Hshow.
    + split; [intros _|done].
      destruct (visibleIds st) as [|p ids] eqn:Hids.
      * apply showsPanelStrip_false in Hids. congruence.
      * exists p. apply elem_of_visibleIds. rewrite Hids. left.
    + split; [done|]. intros (p & Hin & Hopen).
      apply showsPanelStrip_false in Hshow.
      assert (p ∈ visibleIds st) as Hp by by apply elem_of_visibleIds.
      rewrite Hshow in Hp. by apply elem_of_nil in Hp.
  - unfold visiblePanels. rewrite length_map.
    induction (panelOrder st) as [|x order IH]; [done|].
    cbn [List.filter]. destruct (has (openPanels st) x); simpl; lia.
Qed.

Lemma placeholder_iff_nothing_visible_witness :
  showsPanelStrip initialState = true.
Proof.
  apply (proj1 (proj2 (placeholder_iff_nothing_visible initialState))).
  exists map. split; [compute_done|].
  cbn [openPanels initialState]. set_solver.
Defined.

(** X5. While Order is a permutation of the Registry's identities, the
    strip shows exactly as many panels as Visibility has members, and the
    placeholder appears exactly when Visibility is empty. *)
Theorem visible_count (st : State)
    (Hperm : panelOrder st ≡ₚ registryIds) :
  length (visiblePanels st) = size (openPanels st)
  ∧ (showsPanelStrip st = false ↔ openPanels st = ∅)
  ∧ ∀ p : PanelType,
      Some p ∈ entryId <$> visiblePanels st ↔ p ∈ openPanels st.
Proof.
  destruct (registry_order_facts _ Hperm) as (Hnd & _ & Hall & _).
  assert (visibleIds st ≡ₚ elements (openPanels st)) as Hids.
  { apply NoDup_Permutation.
    - by apply NoDup_filter, orderIds_NoDup.
    - apply NoDup_elements.
    - intros p. rewrite elem_of_visibleIds, elem_of_elements.
      split; [tauto | by split]. }
  assert (length (visiblePanels st) = size (openPanels st)) as Hlen.
  { rewrite visiblePanels_length, Hids. done. }
  split_and!; [done| |].
  - unfold showsPanelStrip. rewrite bool_decide_eq_false, Hlen.
    rewrite <- (leibniz_equiv_iff (openPanels st) ∅).
    rewrite <- size_empty_iff. lia.
  - intros p. destruct st as [order s a].
    rewrite visiblePanels_ids, (list_elem_of_fmap_inj Some).
    rewrite (elem_of_visibleIds (mkState order s a)).
    split; [tauto | by split].
Qed.

Lemma visible_count_initial :
  length (visiblePanels initialState) = size (openPanels initialState).
Proof.
  refine (proj1 (visible_count initialState _)). reflexivity.
Defined.

(** ** The shape of a reordered list *)

Section ReorderShape.
Context {T : Type} `{EqDecision T}.
Implicit Types (l A B C : list T) (x y : T).

Lemma position_app_notin x A l :
  x ∉ A → position x (A ++ l) = (length A + position x l)%nat.
Proof.
  induction A as [|z A IH]; intros Hx; [done|].
  apply not_elem_of_cons in Hx as [Hne Hx]. cbn [app position length].
  rewrite decide_False by done. by rewrite IH.
Qed.

Lemma position_here x l : position x (x :: l) = 0%nat.
Proof. cbn [position]. by rewrite decide_True. Qed.

Lemma removeFirst_app_notin x A l :
  x ∉ A → removeFirst x (A ++ l) = A ++ removeFirst x l.
Proof.
  induction A as [|z A IH]; intros Hx; [done|].
  apply not_elem_of_cons in Hx as [Hne Hx]. cbn [app removeFirst].
  rewrite decide_False by done. by rewrite IH.
Qed.

Lemma removeFirst_here x l : removeFirst x (x :: l) = l.
Proof. cbn [removeFirst]. by rewrite decide_True. Qed.

Lemma insertAt_app_length A x l n :
  n = length A → insertAt n x (A ++ l) = A ++ x :: l.
Proof.
  intros ->. unfold insertAt.
  by rewrite take_app_length, drop_app_length.
Qed.

(** [x] in front of [y]: [x] ends up right behind [y]. *)
Lemma reorder_spec_forward A B C x y :
  x ≠ y → x ∉ A → y ∉ A → y ∉ B →
  reorder_spec (A ++ x :: B ++ y :: C) x y = A ++ B ++ y :: x :: C.
Proof.
  intros Hne HxA HyA HyB. unfold reorder_spec.
  rewrite decide_False by done.
  rewrite (removeFirst_app_notin _ _ _ HxA), removeFirst_here.
  rewrite (position_app_notin _ _ _ HyA). cbn [position].
  rewrite decide_False by done.
  rewrite (position_app_notin _ _ _ HyB), position_here.
  replace (A ++ B ++ y :: C) with ((A ++ B ++ [y]) ++ C)
    by (by rewrite <- !app_assoc).
  rewrite insertAt_app_length; [by rewrite <- !app_assoc|].
  rewrite !length_app. simpl. lia.
Qed.

(** [x] behind [y]: [x] ends up right in front of [y]. *)
Lemma reorder_spec_backward A B C x y :
  x ≠ y → y ∉ A →
  x ∉ A → x ∉ B →
  reorder_spec (A ++ y :: B ++ x :: C) x y = A ++ x :: y :: B ++ C.
Proof.
  intros Hne HyA HxA HxB. unfold reorder_spec.
  rewrite decide_False by done.
  rewrite (removeFirst_app_notin _ _ _ HxA). cbn [removeFirst].
  rewrite decide_False by done.
  rewrite (removeFirst_app_notin _ _ _ HxB), removeFirst_here.
  rewrite (position_app_notin _ _ _ HyA), position_here.
  apply insertAt_app_length. lia.
Qed.

Lemma two_elements_split l x y :
  x ∈ l → y ∈ l → x ≠ y →
  (∃ A B C, l = A ++ x :: B ++ y :: C ∧ (x ∉ A) ∧ (y ∉ A) ∧ (y ∉ B))
  ∨ (∃ A B C, l = A ++ y :: B ++ x :: C ∧ (y ∉ A) ∧ (x ∉ A) ∧ (x ∉ B)).
Proof.
  intros Hx Hy Hne.
  apply list_elem_of_split_l in Hx as (l1 & l2 & -> & Hxl1).
  destruct (decide (y ∈ l1)) as [Hyl1|Hyl1].
  - right. apply list_elem_of_split_l in Hyl1 as (A & B & -> & HyA).
    exists A, B, l2. rewrite <- app_assoc. split_and!; [done..| |].
    + intros Hin. apply Hxl1, elem_of_app. by left.
    + intros Hin. apply Hxl1, elem_of_app. right. by right.
  - left. apply elem_of_app in Hy as [Hy|Hy]; [done|].
    apply elem_of_cons in Hy as [Hy|Hy]; [congruence|].
    apply list_elem_of_split_l in Hy as (B & C & -> & HyB).
    by exists l1, B, C.
Qed.

End ReorderShape.

Section ReorderRestricted.
Context {T : Type} `{EqDecision T}.
Implicit Types (l : list T) (x y : T).

(** Dropping or renaming elements commutes with a reorder of two elements
    that are kept. *)
Lemma reorder_spec_omap {U : Type} `{EqDecision U} (f : T → option U)
    l x y (x' y' : U) :
  f x = Some x' → f y = Some y' →
  (∀ z, f z = Some x' → z = x) → (∀ z, f z = Some y' → z = y) →
  x ∈ l → y ∈ l → x ≠ y →
  omap f (reorder_spec l x y) = reorder_spec (omap f l) x' y'.
Proof.
  intros Hfx Hfy Hx' Hy' Hx Hy Hne.
  assert (x' ≠ y') as Hne' by (intros ->; by apply Hne, Hy').
  assert (∀ A : list T, x ∉ A → x' ∉ omap f A) as HnotX.
  { intros A HA (z & Hz & Hfz)%list_elem_of_omap.
    by rewrite (Hx' _ Hfz) in Hz. }
  assert (∀ A : list T, y ∉ A → y' ∉ omap f A) as HnotY.
  { intros A HA (z & Hz & Hfz)%list_elem_of_omap.
    by rewrite (Hy' _ Hfz) in Hz. }
  assert (∀ k, omap f (x :: k) = x' :: omap f k) as Hcx.
  { intros k. cbn [omap list_omap]. by rewrite Hfx. }
  assert (∀ k, omap f (y :: k) = y' :: omap f k) as Hcy.
  { intros k. cbn [omap list_omap]. by rewrite Hfy. }
  destruct (two_elements_split l x y Hx Hy Hne)
    as [(A & B & C & -> & HxA & HyA & HyB)
       |(A & B & C & -> & HyA & HxA & HxB)].
  - rewrite reorder_spec_forward by done.
    repeat (rewrite omap_app || rewrite Hcx || rewrite Hcy).
    rewrite reorder_spec_forward by auto. done.
  - rewrite reorder_spec_backward by done.
    repeat (rewrite omap_app || rewrite Hcx || rewrite Hcy).
    rewrite reorder_spec_backward by auto. done.
Qed.

Lemma filter_as_omap (P : T → Prop) `{∀ x, Decision (P x)} l :
  filter P l = omap (λ x, if decide (P x) then Some x else None) l.
Proof.
  induction l as [|z l IH]; [done|].
  rewrite filter_cons. cbn [omap list_omap].
  destruct (decide (P z)); by rewrite IH.
Qed.

Lemma reorder_spec_filter (P : T → Prop) `{∀ x, Decision (P x)} l x y :
  P x → P y → x ∈ l → y ∈ l → x ≠ y →
  filter P (reorder_spec l x y) = reorder_spec (filter P l) x y.
Proof.
  intros HPx HPy Hx Hy Hne. rewrite !filter_as_omap.
  apply reorder_spec_omap; try done.
  - by rewrite decide_True.
  - by rewrite decide_True.
  - intros z. destruct (decide (P z)); congruence.
  - intros z. destruct (decide (P z)); congruence.
Qed.

Lemma filter_ne_delete l i x :
  l !! i = Some x → filter (λ z, z ≠ x) (delete i l) = filter (λ z, z ≠ x) l.
Proof.
  intros Hi. rewrite <- (take_drop_middle _ _ _ Hi) at 2.
  rewrite delete_take_drop, !filter_app, filter_cons.
  by rewrite decide_False by (intros Hne; by apply Hne).
Qed.

Lemma filter_ne_insertAt l n x :
  filter (λ z, z ≠ x) (insertAt n x l) = filter (λ z, z ≠ x) l.
Proof.
  unfold insertAt. rewrite filter_app, filter_cons.
  rewrite decide_False by (intros Hne; by apply Hne).
  by rewrite <- filter_app, take_drop.
Qed.
End ReorderRestricted.

(** ** What a drop does to the strip and to the other panels *)

Lemma reorderItems_spec (items : list Slot) (a b : PanelType) :
  Id a ∈ items → Id b ∈ items → a ≠ b →
  reorderItems items a b = reorder_spec items (Id a) (Id b).
Proof.
  intros Ha Hb Hne. rewrite reorderItems_in_range by done.
  unfold reorder_spec. rewrite decide_False by (intros [= ?]; done).
  by rewrite removeFirst_delete.
Qed.

Lemma reorderItems_active_present (items : list Slot) (a b : PanelType) :
  Id a ∈ items →
  ∃ n, reorderItems items a b
       = insertAt n (Id a) (delete (position (Id a) items) items).
Proof.
  intros Ha. destruct (decide (Id b ∈ items)) as [Hb|Hb].
  - eexists. by apply reorderItems_in_range.
  - exists (length (delete (position (Id a) items) items)).
    unfold reorderItems.
    rewrite (indexOf_present _ _ Ha), (indexOf_absent _ _ Hb).
    rewrite (arrayMove_to_absent _ _ _ _ (position_lookup _ _ Ha)).
    symmetry. by apply insertAt_end.
Qed.

(** X6. A panel dragged from the strip and dropped on another panel of
    the strip: the strip afterwards is the strip before with the dragged
    identity taken out and put at the index of the one it was dropped on,
    although the indices used for the move are those of the full Order,
    closed panels included. *)
Theorem reorder_on_visible_strip (st : State) (a b : PanelType)
    (Hne : a ≠ b)
    (Ha : Id a ∈ panelOrder st) (Hb : Id b ∈ panelOrder st)
    (Hopen_a : a ∈ openPanels st) (Hopen_b : b ∈ openPanels st) :
  ∃ items : list PanelType,
    sortableItems st = Some items
    ∧ a ∈ items ∧ b ∈ items
    ∧ sortableItems (handleDragEnd st a (Some b))
      = Some (reorder_spec items a b).
Proof.
  exists (visibleIds st). split_and!.
  - apply sortableItems_visibleIds.
  - by apply elem_of_visibleIds.
  - by apply elem_of_visibleIds.
  - rewrite sortableItems_visibleIds. f_equal. unfold visibleIds.
    rewrite handleDragEnd_order_distinct by done.
    assert (openPanels (handleDragEnd st a (Some b)) = openPanels st) as ->.
    { unfold handleDragEnd. by rewrite decide_True. }
    rewrite reorderItems_spec by done. unfold orderIds.
    rewrite (reorder_spec_omap slotId _ _ _ a b); try done.
    + apply (reorder_spec_filter (λ p, p ∈ openPanels st)); try done.
      * by apply elem_of_orderIds.
      * by apply elem_of_orderIds.
    + by intros [p|] [= ->].
    + by intros [p|] [= ->].
    + intros [= ?]. done.
Qed.

Lemma reorder_on_visible_strip_witness :
  sortableItems (handleDragEnd (closePanel initialState music) map
                   (Some chat))
  = Some [chat; map].
Proof.
  destruct (reorder_on_visible_strip (closePanel initialState music)
              map chat) as (items & Hitems & _ & _ & Hafter).
  - discriminate.
  - compute_done.
  - compute_done.
  - cbn [closePanel openPanels initialState]. apply elem_of_closeSet.
    split; [set_solver | discriminate].
  - cbn [closePanel openPanels initialState]. apply elem_of_closeSet.
    split; [set_solver | discriminate].
  - rewrite Hafter. f_equal.
    rewrite sortableItems_visibleIds in Hitems. injection Hitems as <-.
    assert (visibleIds (closePanel initialState music) = [map; chat]) as ->;
      [|reflexivity].
    unfold visibleIds. cbn [closePanel openPanels initialState panelOrder].
    unfold orderIds. cbn [omap list_omap slotId].
    rewrite !filter_cons, filter_nil.
    rewrite decide_True by (apply elem_of_closeSet; set_solver).
    rewrite decide_False by (rewrite elem_of_closeSet; naive_solver).
    by rewrite decide_True by (apply elem_of_closeSet; set_solver).
Defined.

(** X7. A drag-end whose dragged identity is in Order moves that identity
    only: with it left out, Order reads the same before and after,
    whatever the drop target (none, itself, another panel, or an identity
    that Order does not hold). *)
Theorem dragEnd_moves_only_active (st : State) (a : PanelType)
    (over : option PanelType)
    (Ha : Id a ∈ panelOrder st) :
  filter (λ x, x ≠ Id a) (panelOrder (handleDragEnd st a over))
  = filter (λ x, x ≠ Id a) (panelOrder st).
Proof.
  destruct over as [b|]; [|done].
  destruct (decide (a = b)) as [->|Hne].
  - by rewrite handleDragEnd_order_same.
  - rewrite handleDragEnd_order_distinct by done.
    destruct (reorderItems_active_present _ a b Ha) as [n ->].
    rewrite filter_ne_insertAt.
    by apply filter_ne_delete, position_lookup.
Qed.

Lemma dragEnd_moves_only_active_witness :
  filter (λ x, x ≠ Id map)
    (panelOrder (handleDragEnd initialState map (Some chat)))
  = [Id music; Id chat].
Proof.
  rewrite (dragEnd_moves_only_active initialState map (Some chat)).
  - reflexivity.
  - compute_done.
Defined.

(** X8. Two panels next to each other in Order: dropping either one on
    the other swaps them, and dropping the same one on the same other
    again puts Order back. *)
Theorem reorder_adjacent_swaps (st : State) (a b : PanelType)
    (A C : list Slot)
    (Horder : panelOrder st = A ++ Id a :: Id b :: C)
    (Hne : a ≠ b)
    (HaA : Id a ∉ A) (HbA : Id b ∉ A) :
  let swapped := A ++ Id b :: Id a :: C in
  panelOrder (handleDragEnd st a (Some b)) = swapped
  ∧ panelOrder (handleDragEnd st b (Some a)) = swapped
  ∧ panelOrder (handleDragEnd (handleDragEnd st a (Some b)) a (Some b))
    = panelOrder st
  ∧ panelOrder (handleDragEnd (handleDragEnd st b (Some a)) b (Some a))
    = panelOrder st.
Proof.
  intros swapped.
  assert (Id a ≠ Id b) as Hab by (intros [= ?]; done).
  assert (Id b ≠ Id a) as Hba by (intros [= ?]; done).
  assert (∀ x y : PanelType, ∀ l, Id x ∈ l ++ Id x :: Id y :: C) as Hfst.
  { intros x y l. apply elem_of_app. right. left. }
  assert (∀ x y : PanelType, ∀ l, Id y ∈ l ++ Id x :: Id y :: C) as Hsnd.
  { intros x y l. apply elem_of_app. right. right. left. }
  assert (panelOrder (handleDragEnd st a (Some b)) = swapped) as Hfwd.
  { rewrite handleDragEnd_order_distinct, Horder by done.
    rewrite reorderItems_spec by done.
    by rewrite (reorder_spec_forward A [] C (Id a) (Id b))
      by (done || apply not_elem_of_nil). }
  assert (panelOrder (handleDragEnd st b (Some a)) = swapped) as Hbwd.
  { rewrite handleDragEnd_order_distinct, Horder by done.
    rewrite reorderItems_spec by done.
    by rewrite (reorder_spec_backward A [] C (Id b) (Id a))
      by (done || apply not_elem_of_nil). }
  split_and!; [done..| |].
  - rewrite handleDragEnd_order_distinct, Hfwd, Horder by done.
    unfold swapped. rewrite reorderItems_spec by done.
    by rewrite (reorder_spec_backward A [] C (Id a) (Id b))
      by (done || apply not_elem_of_nil).
  - rewrite handleDragEnd_order_distinct, Hbwd, Horder by done.
    unfold swapped. rewrite reorderItems_spec by done.
    by rewrite (reorder_spec_forward A [] C (Id b) (Id a))
      by (done || apply not_elem_of_nil).
Qed.

Lemma reorder_adjacent_swaps_witness :
  panelOrder (handleDragEnd initialState music (Some chat))
  = [Id map; Id chat; Id music].
Proof.
  refine (proj1 (reorder_adjacent_swaps initialState music chat
                   [Id map] [] _ _ _ _)).
  - reflexivity.
  - discriminate.
  - compute_done.
  - compute_done.
Defined.

(** X9. A drag-end on a non-empty Order keeps its length and brings in no
    [undefined].  On an empty Order a drop on a different identity finds
    nothing to move, and Order becomes the one-element array holding
    [undefined]. *)
Theorem dragEnd_order_length (st : State) (a : PanelType)
    (over : option PanelType) :
  let order' := panelOrder (handleDragEnd st a over) in
  (panelOrder st ≠ [] →
     length order' = length (panelOrder st)
     ∧ (undefined ∈ order' ↔ undefined ∈ panelOrder st))
  ∧ (panelOrder st = [] →
     order' = match over with
              | Some b => if decide (a = b) then [] else [undefined]
              | None => []
              end).
Proof.
  intros order'. split.
  - intros Hne.
    assert (order' ≡ₚ panelOrder st) as Hperm.
    { apply (handleEvent_order_Permutation st (OnDragEnd a over) Hne). }
    split; by rewrite Hperm.
  - intros Hnil. unfold order', handleDragEnd.
    destruct over as [b|]; [|done].
    destruct (decide (a = b)) as [->|Hab].
    + by rewrite decide_False by (intros ?; done).
    + rewrite decide_True by done. cbn [panelOrder]. by rewrite Hnil.
Qed.

Lemma dragEnd_order_length_witness :
  length (panelOrder (handleDragEnd stateWithoutChat chat (Some music)))
  = 2%nat.
Proof.
  refine (proj1 (proj1 (dragEnd_order_length stateWithoutChat chat
                          (Some music)) _)).
  discriminate.
Defined.

(** ** Toggling and closing *)

Lemma toggleSet_toggleSet (s : gset PanelType) (p : PanelType) :
  toggleSet (toggleSet s p) p = s.
Proof.
  apply set_eq. intros q.
  rewrite (elem_of_toggleSet (toggleSet s p) p q).
  destruct (decide (q = p)) as [Hq|Hq];
    rewrite elem_of_toggleSet;
    rewrite ?(decide_True _ _ Hq), ?(decide_False _ _ Hq); [|tauto].
  destruct (decide (q ∈ s)); tauto.
Qed.

Lemma toggleSet_comm (s : gset PanelType) (p q : PanelType) :
  toggleSet (toggleSet s p) q = toggleSet (toggleSet s q) p.
Proof.
  apply set_eq. intros r.
  rewrite (elem_of_toggleSet (toggleSet s p) q r).
  rewrite (elem_of_toggleSet (toggleSet s q) p r).
  destruct (decide (r = q)) as [Hq|Hq], (decide (r = p)) as [Hp|Hp];
    rewrite !elem_of_toggleSet;
    rewrite ?(decide_True _ _ Hq), ?(decide_True _ _ Hp),
      ?(decide_False _ _ Hq), ?(decide_False _ _ Hp); tauto.
Qed.

Lemma toggleSet_open (s : gset PanelType) (p : PanelType) :
  p ∈ s → toggleSet s p = closeSet s p.
Proof. intros Hp. unfold toggleSet, closeSet. by rewrite decide_True. Qed.

Lemma closeSet_toggleSet (s : gset PanelType) (p : PanelType) :
  closeSet (toggleSet s p) p = closeSet s p.
Proof.
  apply set_eq. intros q. rewrite !elem_of_closeSet, elem_of_toggleSet.
  destruct (decide (q = p)); tauto.
Qed.

(** X10. Clicking a sidebar button twice restores the state; clicks on
    two buttons can be made in either order; a click on the button of an
    open panel does what its close button does; a close after a click
    equals a close alone; and a click after a close always opens the
    panel. *)
Theorem toggle_algebra (st : State) (p q : PanelType) :
  togglePanel (togglePanel st p) p = st
  ∧ togglePanel (togglePanel st p) q = togglePanel (togglePanel st q) p
  ∧ (p ∈ openPanels st → togglePanel st p = closePanel st p)
  ∧ closePanel (togglePanel st p) p = closePanel st p
  ∧ p ∈ openPanels (togglePanel (closePanel st p) p).
Proof.
  destruct st as [order s a]. unfold togglePanel, closePanel.
  cbn [panelOrder openPanels activeId]. split_and!.
  - by rewrite toggleSet_toggleSet.
  - by rewrite toggleSet_comm.
  - intros Hp. by rewrite toggleSet_open.
  - by rewrite closeSet_toggleSet.
  - rewrite elem_of_toggleSet, decide_True by done.
    rewrite elem_of_closeSet. tauto.
Qed.

Lemma toggle_algebra_witness :
  togglePanel initialState chat = closePanel initialState chat.
Proof.
  refine (proj1 (proj2 (proj2 (toggle_algebra initialState chat chat))) _).
  cbn [openPanels initialState]. set_solver.
Defined.

Lemma visibleIds_closePanel (st : State) (p : PanelType) :
  visibleIds (closePanel st p) = filter (λ q, q ≠ p) (visibleIds st).
Proof.
  unfold visibleIds. cbn [closePanel panelOrder openPanels].
  rewrite list_filter_filter. apply list_filter_iff.
  intros q. rewrite elem_of_closeSet. tauto.
Qed.

Lemma visibleIds_toggle_closed (st : State) (p : PanelType) :
  p ∉ openPanels st →
  filter (λ q, q ≠ p) (visibleIds (togglePanel st p)) = visibleIds st.
Proof.
  intros Hp. unfold visibleIds. cbn [togglePanel panelOrder openPanels].
  rewrite list_filter_filter. apply list_filter_iff.
  intros q. rewrite elem_of_toggleSet.
  destruct (decide (q = p)) as [->|]; tauto.
Qed.

(** X11. Closing a panel takes exactly its identity out of the strip; the
    panels that remain keep their sequence.  Closing a panel that is not
    in the strip leaves the strip as it is. *)
Theorem close_removes_from_strip (st : State) (p : PanelType) :
  ∃ items : list PanelType,
    sortableItems st = Some items
    ∧ sortableItems (closePanel st p) = Some (filter (λ q, q ≠ p) items)
    ∧ (p ∉ items → sortableItems (closePanel st p) = Some items).
Proof.
  exists (visibleIds st). split_and!.
  - apply sortableItems_visibleIds.
  - by rewrite sortableItems_visibleIds, visibleIds_closePanel.
  - intros Hp. rewrite sortableItems_visibleIds, visibleIds_closePanel.
    f_equal. induction (visibleIds st) as [|q ids IH]; [done|].
    apply not_elem_of_cons in Hp as [Hne Hp].
    rewrite filter_cons, decide_True by done. by rewrite IH.
Qed.

Lemma close_removes_from_strip_witness :
  sortableItems (closePanel stateWithoutChat chat)
  = sortableItems stateWithoutChat.
Proof.
  destruct (close_removes_from_strip stateWithoutChat chat)
    as (items & Hitems & _ & Hsame).
  rewrite Hitems. apply Hsame.
  rewrite sortableItems_visibleIds in Hitems. injection Hitems as <-.
  rewrite elem_of_visibleIds. intros [Hin _]. revert Hin. compute_done.
Defined.

(** X12. Clicking the sidebar button of a closed panel puts the panel
    into the strip when Order holds its identity, at the place Order gives
    it: the panels already shown keep their sequence around it. *)
Theorem toggle_opens_in_place (st : State) (p : PanelType)
    (Hclosed : p ∉ openPanels st) :
  ∃ before after : list PanelType,
    sortableItems st = Some before
    ∧ sortableItems (togglePanel st p) = Some after
    ∧ filter (λ q, q ≠ p) after = before
    ∧ (p ∈ after ↔ Id p ∈ panelOrder st)
    ∧ after `sublist_of` orderIds (panelOrder st).
Proof.
  exists (visibleIds st), (visibleIds (togglePanel st p)). split_and!.
  - apply sortableItems_visibleIds.
  - apply sortableItems_visibleIds.
  - by apply visibleIds_toggle_closed.
  - rewrite elem_of_visibleIds. cbn [togglePanel panelOrder openPanels].
    rewrite elem_of_toggleSet, decide_True by done. tauto.
  - apply sublist_filter.
Qed.

Lemma toggle_opens_in_place_witness :
  ∃ after : list PanelType,
    sortableItems (togglePanel (closePanel initialState music) music)
    = Some after ∧ music ∈ after.
Proof.
  destruct (toggle_opens_in_place (closePanel initialState music) music)
    as (before & after & _ & Hafter & _ & Hin & _).
  - cbn [closePanel openPanels]. rewrite elem_of_closeSet. tauto.
  - exists after. split; [done|]. apply Hin. compute_done.
Defined.

(** ** The active drag over a sequence of events *)

Lemma handleEvents_no_drag_activeId (st : State) (evs : list Event) :
  Forall (λ ev, isDragEvent ev = false) evs →
  activeId (handleEvents st evs) = activeId st.
Proof.
  intros Hevs. revert st.
  induction Hevs as [|ev evs Hev _ IH]; intros st; [done|].
  rewrite handleEvents_cons, IH. by destruct ev.
Qed.

Lemma handleDragEnd_activeId (st : State) (a : PanelType)
    (over : option PanelType) :
  activeId (handleDragEnd st a over) = None.
Proof.
  unfold handleDragEnd. destruct over as [b|]; [|done].
  by destruct (decide (a ≠ b)).
Qed.

Lemma activePanel_Some (st : State) (p : PanelType) :
  activeId st = Some p →
  ∃ d, activePanel st = Some d ∧ id d = p ∧ d ∈ allPanels.
Proof. intros Hp. unfold activePanel. rewrite Hp. apply findPanel_Id. Qed.

Lemma activePanel_None (st : State) :
  activeId st = None → activePanel st = None.
Proof. intros Hp. unfold activePanel. by rewrite Hp. Qed.

(** X13. The active drag is decided by the most recent drag event alone:
    after a drag-start it is the started identity and the overlay shows
    that identity's Registry entry; after a drag-end or a drag-cancel
    there is none and the overlay is empty.  Sidebar clicks and panel
    closes made since do not change it. *)
Theorem activeDrag_follows_last_drag (st : State) (pre post : list Event)
    (Hpost : Forall (λ ev, isDragEvent ev = false) post) :
  (∀ p : PanelType,
     let st' := handleEvents st (pre ++ OnDragStart p :: post) in
     activeId st' = Some p
     ∧ ∃ d, activePanel st' = Some d ∧ id d = p ∧ d ∈ allPanels)
  ∧ (∀ (a : PanelType) (over : option PanelType),
       let st' := handleEvents st (pre ++ OnDragEnd a over :: post) in
       activeId st' = None ∧ activePanel st' = None)
  ∧ (let st' := handleEvents st (pre ++ OnDragCancel :: post) in
     activeId st' = None ∧ activePanel st' = None)
  ∧ activeId (handleEvents st post) = activeId st.
Proof.
  split_and!.
  - intros p st'.
    assert (activeId st' = Some p) as Hactive.
    { unfold st'. rewrite handleEvents_app, handleEvents_cons.
      by rewrite handleEvents_no_drag_activeId. }
    split; [done | by apply activePanel_Some].
  - intros a over st'.
    assert (activeId st' = None) as Hactive.
    { unfold st'. rewrite handleEvents_app, handleEvents_cons.
      rewrite handleEvents_no_drag_activeId by done.
      apply handleDragEnd_activeId. }
    split; [done | by apply activePanel_None].
  - intros st'.
    assert (activeId st' = None) as Hactive.
    { unfold st'. rewrite handleEvents_app, handleEvents_cons.
      by rewrite handleEvents_no_drag_activeId. }
    split; [done | by apply activePanel_None].
  - by apply handleEvents_no_drag_activeId.
Qed.

Lemma activeDrag_follows_last_drag_witness :
  activeId (handleEvents initialState
              [OnToggle map; OnDragStart chat; OnClose music; OnToggle map])
  = Some chat.
Proof.
  refine (proj1 (proj1 (activeDrag_follows_last_drag initialState
                          [OnToggle map] [OnClose music; OnToggle map] _)
                   chat)).
  by repeat constructor.
Defined.

(** ** Drag events and visibility events do not interfere *)

Lemma handleEvents_order_depends (st1 st2 : State) (evs : list Event) :
  panelOrder st1 = panelOrder st2 →
  panelOrder (handleEvents st1 evs) = panelOrder (handleEvents st2 evs).
Proof.
  revert st1 st2. induction evs as [|ev evs IH]; intros st1 st2 Heq; [done|].
  rewrite !handleEvents_cons. apply IH.
  destruct ev as [a|a [b|]| |p|p]; cbn [handleEvent]; try done.
  unfold handleDragEnd.
  destruct (decide (a ≠ b)); cbn [panelOrder]; by rewrite ?Heq.
Qed.

Lemma handleEvents_open_depends (st1 st2 : State) (evs : list Event) :
  openPanels st1 = openPanels st2 →
  openPanels (handleEvents st1 evs) = openPanels (handleEvents st2 evs).
Proof.
  revert st1 st2. induction evs as [|ev evs IH]; intros st1 st2 Heq; [done|].
  rewrite !handleEvents_cons. apply IH.
  destruct ev as [a|a [b|]| |p|p]; cbn [handleEvent]; try done.
  - unfold handleDragEnd. by destruct (decide (a ≠ b)).
  - cbn [togglePanel openPanels]. by rewrite Heq.
  - cbn [closePanel openPanels]. by rewrite Heq.
Qed.

(** X14. Over any sequence of events, Order is what the drag events alone
    would have made it, and Visibility is what the sidebar clicks and
    panel closes alone would have made it: the two kinds of events can be
    interleaved in any way without changing the outcome. *)
Theorem events_do_not_interfere (st : State) (evs : list Event) :
  panelOrder (handleEvents st evs)
  = panelOrder (handleEvents st (List.filter isDragEvent evs))
  ∧ openPanels (handleEvents st evs)
    = openPanels
        (handleEvents st (List.filter (λ ev, negb (isDragEvent ev)) evs)).
Proof.
  revert st. induction evs as [|ev evs IH]; intros st; [done|].
  rewrite handleEvents_cons. destruct (IH (handleEvent st ev)) as [-> ->].
  cbn [List.filter].
  destruct ev as [a|a over| |p|p]; cbn [isDragEvent negb];
    rewrite ?handleEvents_cons; split;
    try done;
    (apply handleEvents_order_depends || apply handleEvents_open_depends);
    try done.
  unfold handleEvent, handleDragEnd. destruct over as [b|]; [|done].
  by destruct (decide (a ≠ b)).
Qed.

(** ** Which states can be reached *)

Lemma handleEvents_drag_only_open (st : State) (evs : list Event) :
  Forall (λ ev, isDragEvent ev = true) evs →
  openPanels (handleEvents st evs) = openPanels st.
Proof.
  intros Hevs. revert st.
  induction Hevs as [|ev evs Hev _ IH]; intros st; [done|].
  rewrite handleEvents_cons, IH.
  destruct ev as [a|a [b|]| |p|p]; try done.
  cbn [handleEvent]. unfold handleDragEnd. by destruct (decide (a ≠ b)).
Qed.

Lemma handleEvents_closes (st : State) (ps : list PanelType) :
  handleEvents st (OnClose <$> ps)
  = {| panelOrder := panelOrder st;
       openPanels := openPanels st ∖ list_to_set ps;
       activeId := activeId st |}.
Proof.
  revert st. induction ps as [|p ps IH]; intros [order s a].
  - cbn [fmap list_fmap handleEvents foldl panelOrder openPanels activeId
         list_to_set]. f_equal. set_solver.
  - cbn [fmap list_fmap]. rewrite handleEvents_cons.
    change (list_fmap _ _ OnClose ps) with (OnClose <$> ps). rewrite IH.
    cbn [handleEvent closePanel panelOrder openPanels activeId list_to_set].
    f_equal. unfold closeSet. set_solver.
Qed.

(** Every arrangement of the three panels can be produced by drops. *)
Lemma registry_arrangement_reachable (order : list Slot) :
  order ≡ₚ registryIds →
  ∃ evs, Forall (λ ev, isDragEvent ev = true) evs
         ∧ panelOrder (handleEvents initialState evs) = order.
Proof.
  intros Hperm.
  destruct (registry_order_facts _ Hperm) as (Hnd & Hundef & _ & Hlen).
  destruct order as [|x [|y [|z [|]]]]; try discriminate Hlen.
  destruct x as [[]|], y as [[]|], z as [[]|];
    first
      [ by (exfalso; apply Hundef; compute_done)
      | by (exfalso; revert Hnd; compute_done)
      | by (exists []; split; [repeat constructor | reflexivity])
      | by (exists [OnDragEnd map (Some chat)];
            split; [repeat constructor | reflexivity])
      | by (exists [OnDragEnd music (Some chat)];
            split; [repeat constructor | reflexivity])
      | by (exists [OnDragEnd map (Some music)];
            split; [repeat constructor | reflexivity])
      | by (exists [OnDragEnd chat (Some map)];
            split; [repeat constructor | reflexivity])
      | by (exists [OnDragEnd map (Some chat); OnDragEnd chat (Some music)];
            split; [repeat constructor | reflexivity]) ].
Qed.

(** X15. The states the component can be in are exactly those whose Order
    is a permutation of the Registry's identities: each of them, with any
    Visibility and any active drag, is what some sequence of handler
    calls leaves behind after startup, and no other state is. *)
Theorem reachable_iff_order_permutation (st : State) :
  (∃ evs : list Event, handleEvents initialState evs = st)
  ↔ panelOrder st ≡ₚ registryIds.
Proof.
  split.
  - intros [evs <-]. by apply handleEvents_order_registry.
  - intros Hperm. destruct st as [order s a]. cbn [panelOrder] in Hperm.
    destruct (registry_arrangement_reachable order Hperm)
      as (drops & Hdrops & Horder).
    set (closes := OnClose <$> filter (λ p, p ∉ s) [map; music; chat]).
    set (last := match a with
                 | Some p => OnDragStart p
                 | None => OnDragCancel
                 end).
    exists (drops ++ closes ++ [last]).
    rewrite !handleEvents_app. unfold closes. rewrite handleEvents_closes.
    rewrite Horder, (handleEvents_drag_only_open _ _ Hdrops).
    assert (openPanels initialState
              ∖ list_to_set (filter (λ p, p ∉ s) [map; music; chat]) = s)
      as ->.
    { apply set_eq. intros p.
      rewrite elem_of_difference, elem_of_list_to_set, list_elem_of_filter.
      assert (p ∈ openPanels initialState) as Hp.
      { cbn [openPanels initialState]. destruct p; set_solver. }
      assert (p ∈ [map; music; chat]) as Hin by (destruct p; compute_done).
      destruct (decide (p ∈ s)); tauto. }
    unfold last. by destruct a.
Qed.

Lemma reachable_iff_order_permutation_witness :
  ∃ evs : list Event,
    handleEvents initialState evs
    = {| panelOrder := [Id chat; Id music; Id map];
         openPanels := {[music]};
         activeId := Some music |}.
Proof.
  apply (proj2 (reachable_iff_order_permutation
                  {| panelOrder := [Id chat; Id music; Id map];
                     openPanels := {[music]};
                     activeId := Some music |})).
  cbn [panelOrder]. compute_done.
Defined.
